(** * rainradar: nearest rain around a pixel of a rainfall radar image

    A shallow embedding of [src/rainradar.py] (class [RainRadar] and its
    subclass [MetEireannRainRadar]) and the properties of the outward
    search and of the quadrant locator.

    Python integers are unbounded, so coordinates are [Z].  Pixel positions
    and colours are tuples.  The dictionary [quadrants] is a [gmap].  The
    generator [search_outwards] is modelled by the list of the positions it
    yields; its inner [while] loop is run with fuel, and shown to finish. *)

From Stdlib Require Import ZArith Lia Rbase R_sqrt Zfloor Lra.
From stdpp Require Import base numbers option list list_numbers sorting gmap.

Local Open Scope Z_scope.

(** ** Data *)

(** A position [(x, y)]: pixels, origin top left. *)
Abbreviation point := (Z * Z)%type.

(** An RGB triple [(r, g, b)]. *)
Abbreviation colour := (Z * Z * Z)%type.

(** ** search_outwards *)

(** The four bounds computed at the top of one iteration of the [for] loop. *)
Record box := Box { x_min : Z; x_max : Z; y_min : Z; y_max : Z }.

Definition ring_box (center : point) (distance : Z) : box :=
  {| x_min := center.1 - distance; x_max := center.1 + distance;
     y_min := center.2 - distance; y_max := center.2 + distance |}.

(** The body of the [while] loop after the [yield]: the next [(x, y)]. *)
Definition advance (b : box) (xy : point) : point :=
  let '(x, y) := xy in
  if (y =? y_min b) || (y =? y_max b) then
    if x =? x_max b then (x_min b, y + 1) else (x + 1, y)
  else if x =? x_min b then (x_max b, y)
  else if x =? x_max b then (x_min b, y + 1)
  else (x, y).

(** [while x <= x_max and y <= y_max: yield (x, y); ...].  [None] when the
    fuel runs out before the loop condition fails. *)
Fixpoint walk (fuel : nat) (b : box) (xy : point) : option (list point) :=
  if (xy.1 <=? x_max b) && (xy.2 <=? y_max b) then
    match fuel with
    | O => None
    | S fuel' => cons xy <$> walk fuel' b (advance b xy)
    end
  else Some [].

(** One iteration of [for distance in range(1, max_distance + 1)]. *)
Definition ring_fuel (fuel : nat) (center : point) (distance : Z)
    : option (list point) :=
  let b := ring_box center distance in walk fuel b (x_min b, y_min b).

(** Everything the generator yields, ring after ring. *)
Definition search_outwards_fuel (fuel : nat) (center : point)
    (max_distance : Z) : option (list point) :=
  mjoin <$> mapM (ring_fuel fuel center) (seqZ 1 max_distance).

(** [8 * distance] steps are enough for the ring at [distance]
    ([ring_fuel_enough] below), which gives the total versions. *)
Definition ring (center : point) (distance : Z) : list point :=
  default [] (ring_fuel (Z.to_nat (8 * distance)) center distance).

Definition search_outwards (center : point) (max_distance : Z) : list point :=
  seqZ 1 max_distance ≫= ring center.

(** *** The shape of a ring, for the statements below *)

(** The cells [(x, y)] for [x] from [x0] up to [x1]. *)
Definition row (x0 x1 y : Z) : list point :=
  (λ x, (x, y)) <$> seqZ x0 (x1 - x0 + 1).

(** The cells [(x, y)] for [y] from [y0] up to [y1]. *)
Definition column (x y0 y1 : Z) : list point :=
  (λ y, (x, y)) <$> seqZ y0 (y1 - y0 + 1).

(** Left cell then right cell of each row strictly between top and bottom. *)
Definition sides (b : box) : list point :=
  seqZ (y_min b + 1) (y_max b - y_min b - 1) ≫= λ y, [(x_min b, y); (x_max b, y)].

Definition perimeter (b : box) : list point :=
  row (x_min b) (x_max b) (y_min b) ++ sides b ++ row (x_min b) (x_max b) (y_max b).

(** The number of times the loop of one ring yields: two edges and two
    cells for each row between them. *)
Definition steps (b : box) : nat :=
  Z.to_nat (2 * (x_max b - x_min b + 1) + 2 * (y_max b - y_min b - 1)).

(** Chebyshev distance between two positions. *)
Definition chebyshev (a p : point) : Z :=
  Z.abs (p.1 - a.1) `max` Z.abs (p.2 - a.2).

(** ** distance *)

Definition squared_distance (a b : point) : Z :=
  (a.1 - b.1) ^ 2 + (a.2 - b.2) ^ 2.

(** [distance]: the exact Euclidean distance, a real number. *)
Definition distance (a b : point) : R := sqrt (IZR (squared_distance a b)).

(** [math.floor(self.distance(a, b))], computed on integers.  The source
    takes the square root in double precision; its floor is the integer
    square root as long as the sum of squares stays below [2 ^ 52], far
    beyond the coordinates of any image (see [floor_distance_floor]). *)
Definition floor_distance (a b : point) : Z := Z.sqrt (squared_distance a b).

(** ** The radar classes *)

(** [rain_colours] is the one method a subclass overrides. *)
Class RainRadar := { rain_colours : list colour }.

Definition BaseRainRadar : RainRadar := {| rain_colours := [] |}.

Definition MetEireannRainRadar : RainRadar :=
  {| rain_colours :=
       [ (230, 227, 230); (188, 189, 188); (239, 0, 0); (255, 153, 153);
         (255, 85, 255); (132, 0, 132); (255, 255, 140); (239, 243, 0);
         (0, 211, 0); (82, 243, 123); (0, 254, 254); (89, 169, 254);
         (81, 72, 254); (0, 0, 187) ] |}.

(** ** nearest_rain *)

(** The opened image: [image.size] and the accessor [image.load()].  The
    accessor belongs to the imaging library; [None] stands for the
    [IndexError] it raises. *)
Record image := Image {
  image_size : Z * Z;
  pixels : point → option colour
}.

(** Python 2's [cmp]. *)
Definition cmp (a b : Z) : Z :=
  match a ?= b with Lt => -1 | Eq => 0 | Gt => 1 end.

(** The key [(cmp(point[0], position[0]), cmp(point[1], position[1]))]. *)
Abbreviation quadrant := (Z * Z)%type.

Definition quadrant_of (position p : point) : quadrant :=
  (cmp p.1 position.1, cmp p.2 position.2).

Definition NW : quadrant := (-1, -1).
Definition SW : quadrant := (-1, 1).
Definition NE : quadrant := (1, -1).
Definition SE : quadrant := (1, 1).

(** The state of the scan: the dictionary [quadrants], and the log of the
    positions at which the accessor was called, oldest first. *)
Record scan_state := ScanState {
  quadrants : gmap quadrant point;
  reads : list point
}.

(** The outcome of a call: the list returned, or the [IndexError] that
    leaves [nearest_rain]. *)
Inductive outcome := Returned (result : list Z) | IndexError.

(** Tuples compare lexicographically. *)
Definition tuple_le (a b : Z * Z) : Prop :=
  a.1 < b.1 ∨ (a.1 = b.1 ∧ a.2 ≤ b.2).

Global Instance tuple_le_dec a b : Decision (tuple_le a b).
Proof. unfold tuple_le. apply _. Defined.

(** [sorted(quadrants)]: the keys in increasing order. *)
Definition sorted (m : gmap quadrant point) : list quadrant :=
  merge_sort tuple_le (elements (dom m)).

(** The loop that builds [result]. *)
Definition report (m : gmap quadrant point) (position : point) : list Z :=
  (λ q, floor_distance (m !!! q) position) <$> sorted m.

Section locator.
Context `{RainRadar}.

(** [pixels[p] in rain_colours], inside the [try]: an [IndexError] is
    swallowed and nothing is recorded. *)
Definition raining (img : image) (p : point) : bool :=
  match pixels img p with
  | Some c => bool_decide (c ∈ rain_colours)
  | None => false
  end.

(** The body of the [for] loop below the [break] test. *)
Definition visit (img : image) (position p : point) (s : scan_state)
    : scan_state :=
  let q := quadrant_of position p in
  {| quadrants :=
       if raining img p then
         match quadrants s !! q with
         | None => <[q := p]> (quadrants s)
         | Some _ => quadrants s
         end
       else quadrants s;
     reads := reads s ++ [p] |}.

(** [for point in ...: if len(quadrants) >= 4: break; ...] *)
Fixpoint scan (img : image) (position : point) (pts : list point)
    (s : scan_state) : scan_state :=
  match pts with
  | [] => s
  | p :: pts' =>
      if bool_decide (4 ≤ size (quadrants s))%nat then s
      else scan img position pts' (visit img position p s)
  end.

(** The state when the loop starts: the center has been read. *)
Definition start (position : point) : scan_state :=
  {| quadrants := ∅; reads := [position] |}.

(** The state when the loop is left. *)
Definition scanned (position : point) (img : image) : scan_state :=
  scan img position
    (search_outwards position ((image_size img).1 `max` (image_size img).2))
    (start position).

Definition nearest_rain (position : point) (img : image)
    : outcome * list point :=
  match pixels img position with
  | None => (IndexError, [position])
  | Some c =>
      if bool_decide (c ∈ rain_colours) then (Returned [0; 0; 0; 0], [position])
      else
        let s := scanned position img in
        (Returned (report (quadrants s) position), reads s)
  end.
End locator.

(** *** Images for the examples *)

(** An image given by its rows; the accessor fails outside
    [0 <= x < width], [0 <= y < height]. *)
Definition image_of_rows (width : Z) (rows : list (list colour)) : image :=
  {| image_size := (width, Z.of_nat (length rows));
     pixels := λ p,
       if (0 <=? p.1) && (p.1 <? width) && (0 <=? p.2) then
         rows !! Z.to_nat p.2 ≫= λ r, r !! Z.to_nat p.1
       else None |}.

(** A radar image of five by five pixels: [blue] is rain at 0.1 mm/hour
    in the Met Eireann palette, [white] is no rain. *)
Definition white : colour := (255, 255, 255).
Definition blue : colour := (0, 0, 187).

(** Rain in the four corners only. *)
Definition corners : image :=
  image_of_rows 5
    [ [blue;  white; white; white; blue ];
      [white; white; white; white; white];
      [white; white; white; white; white];
      [white; white; white; white; white];
      [blue;  white; white; white; blue ] ].

(** Rain in the four corners, and one pixel straight above [(2, 2)]. *)
Definition corners_and_north : image :=
  image_of_rows 5
    [ [blue;  white; white; white; blue ];
      [white; white; blue;  white; white];
      [white; white; white; white; white];
      [white; white; white; white; white];
      [blue;  white; white; white; blue ] ].

(** Rain in the four corners, and next to [(2, 2)] on its row and column. *)
Definition corners_and_cross : image :=
  image_of_rows 5
    [ [blue;  white; white; white; blue ];
      [white; white; blue;  white; white];
      [white; blue;  white; blue;  white];
      [white; white; blue;  white; white];
      [blue;  white; white; white; blue ] ].

(** No rain at all, on three by three pixels. *)
Definition clear_sky : image :=
  image_of_rows 3
    [ [white; white; white];
      [white; white; white];
      [white; white; white] ].

(** Seven by seven pixels with rain at [(0, 0)] and at [(2, 0)]. *)
Definition corner_and_edge : image :=
  image_of_rows 7
    [ [blue;  white; blue;  white; white; white; white];
      [white; white; white; white; white; white; white];
      [white; white; white; white; white; white; white];
      [white; white; white; white; white; white; white];
      [white; white; white; white; white; white; white];
      [white; white; white; white; white; white; white];
      [white; white; white; white; white; white; white] ].

(** *** The order within a ring, as the specification words it *)

(** Top edge left to right, bottom edge left to right, then the left edge
    and the right edge, top to bottom, without the corners. *)
Definition edges_in_turn (b : box) : list point :=
  row (x_min b) (x_max b) (y_min b) ++ row (x_min b) (x_max b) (y_max b) ++
  column (x_min b) (y_min b + 1) (y_max b - 1) ++
  column (x_max b) (y_min b + 1) (y_max b - 1).

(** *** Moving the center, and the rain under a key *)

(** The position [p] moved by [d]. *)
Definition shift (d p : point) : point := (p.1 + d.1, p.2 + d.2).

Definition shift_box (d : point) (b : box) : box :=
  {| x_min := x_min b + d.1; x_max := x_max b + d.1;
     y_min := y_min b + d.2; y_max := y_max b + d.2 |}.

(** The positions of [pts], in order, where it rains and whose key
    relative to [position] is [q]. *)
Definition rain_under `{RainRadar} (img : image) (position : point)
    (q : quadrant) (pts : list point) : list point :=
  filter (λ p, raining img p = true ∧ quadrant_of position p = q) pts.

(** * Properties *)

Example search_outwards_1 :
  search_outwards_fuel 8 (0, 0) 1 =
  Some [(-1,-1); (0,-1); (1,-1); (-1,0); (1,0); (-1,1); (0,1); (1,1)].
Proof. reflexivity. Qed.

(** ** The outward search *)

Section walk.
Variable b : box.

Lemma walk_S fuel x y :
  x ≤ x_max b → y ≤ y_max b →
  walk (S fuel) b (x, y) = cons (x, y) <$> walk fuel b (advance b (x, y)).
Proof.
  intros Hx Hy. simpl.
  destruct (Z.leb_spec x (x_max b)); [|lia].
  destruct (Z.leb_spec y (y_max b)); [|lia]. done.
Qed.

Lemma walk_done fuel x y : y_max b < y → walk fuel b (x, y) = Some [].
Proof.
  intros Hy. destruct fuel; simpl;
    destruct (Z.leb_spec y (y_max b)); try lia; by rewrite andb_false_r.
Qed.

Lemma advance_edge x y :
  y = y_min b ∨ y = y_max b →
  advance b (x, y) = if x =? x_max b then (x_min b, y + 1) else (x + 1, y).
Proof.
  intros Hy. unfold advance.
  destruct (Z.eqb_spec y (y_min b)); [done|].
  destruct (Z.eqb_spec y (y_max b)); [done|]. lia.
Qed.

Lemma advance_inner_left y :
  y ≠ y_min b → y ≠ y_max b → advance b (x_min b, y) = (x_max b, y).
Proof.
  intros Ht Hb. unfold advance.
  destruct (Z.eqb_spec y (y_min b)); [done|].
  destruct (Z.eqb_spec y (y_max b)); [done|].
  by rewrite Z.eqb_refl.
Qed.

Lemma advance_inner_right y :
  y ≠ y_min b → y ≠ y_max b → x_min b ≠ x_max b →
  advance b (x_max b, y) = (x_min b, y + 1).
Proof.
  intros Ht Hb Hx. unfold advance.
  destruct (Z.eqb_spec y (y_min b)); [done|].
  destruct (Z.eqb_spec y (y_max b)); [done|].
  destruct (Z.eqb_spec (x_max b) (x_min b)); [congruence|].
  by rewrite Z.eqb_refl.
Qed.

Lemma row_cons x0 x1 y : x0 ≤ x1 → row x0 x1 y = (x0, y) :: row (x0 + 1) x1 y.
Proof.
  intros Hx. unfold row. rewrite seqZ_cons by lia. simpl.
  do 3 f_equal; lia.
Qed.

Lemma row_single x y : row x x y = [(x, y)].
Proof. unfold row. by replace (x - x + 1) with 1 by lia. Qed.

(** Along the top or the bottom edge the loop runs to the right end and
    then moves to the start of the next line. *)
Lemma walk_row n fuel x y :
  y = y_min b ∨ y = y_max b → y ≤ y_max b → x ≤ x_max b →
  Z.to_nat (x_max b - x) = n →
  walk (S n + fuel) b (x, y) =
    app (row x (x_max b) y) <$> walk fuel b (x_min b, y + 1).
Proof.
  intros Hy Hy'. revert x. induction n as [|n IH]; intros x Hx Hn.
  - assert (x = x_max b) as -> by lia.
    rewrite Nat.add_succ_l, walk_S, advance_edge, Z.eqb_refl, row_single by done.
    by destruct (walk _ _ _).
  - rewrite Nat.add_succ_l, walk_S, advance_edge by done.
    destruct (Z.eqb_spec x (x_max b)); [lia|].
    rewrite IH, (row_cons x) by lia.
    by destruct (walk _ _ _).
Qed.

(** On a line strictly between the edges the loop yields the left cell,
    the right cell, and moves down. *)
Lemma walk_inner fuel y :
  y_min b < y < y_max b → x_min b < x_max b →
  walk (2 + fuel) b (x_min b, y) =
    app [(x_min b, y); (x_max b, y)] <$> walk fuel b (x_min b, y + 1).
Proof.
  intros Hy Hx. change (2 + fuel)%nat with (S (S fuel)).
  rewrite walk_S, advance_inner_left, walk_S, advance_inner_right by lia.
  by destruct (walk _ _ _).
Qed.

Lemma walk_sides n fuel y :
  y_min b < y → y + Z.of_nat n = y_max b → x_min b < x_max b →
  walk (2 * n + fuel) b (x_min b, y) =
    app (seqZ y (Z.of_nat n) ≫= λ y, [(x_min b, y); (x_max b, y)])
    <$> walk fuel b (x_min b, y_max b).
Proof.
  intros Hy Hn Hx. revert y Hy Hn. induction n as [|n IH]; intros y Hy Hn.
  - assert (y = y_max b) as -> by lia. simpl. by destruct (walk _ _ _).
  - replace (2 * S n + fuel)%nat with (2 + (2 * n + fuel))%nat by lia.
    rewrite walk_inner, IH, (seqZ_cons y) by lia.
    replace (Z.pred (Z.of_nat (S n))) with (Z.of_nat n) by lia.
    by destruct (walk _ _ _).
Qed.

Lemma walk_perimeter fuel :
  x_min b < x_max b → y_min b < y_max b →
  walk (steps b + fuel) b (x_min b, y_min b) = Some (perimeter b).
Proof.
  intros Hx Hy. unfold steps, perimeter.
  set (w := Z.to_nat (x_max b - x_min b)).
  set (h := Z.to_nat (y_max b - y_min b - 1)).
  replace (Z.to_nat _ + fuel)%nat
    with (S w + (2 * h + (S w + fuel)))%nat by (subst w h; lia).
  rewrite (walk_row w) by (done || lia || auto).
  rewrite (walk_sides h) by (subst h; lia).
  rewrite (walk_row w) by (done || lia || auto).
  rewrite walk_done by lia. simpl.
  rewrite app_nil_r. unfold sides. subst h. by rewrite Z2Nat.id by lia.
Qed.
End walk.

Lemma ring_box_steps center distance :
  1 ≤ distance → steps (ring_box center distance) = Z.to_nat (8 * distance).
Proof. intros Hd. unfold steps. simpl. f_equal. lia. Qed.

(** [8 * distance] steps or more finish the ring at [distance], on the
    perimeter of its box. *)
Lemma ring_fuel_enough fuel center distance :
  1 ≤ distance → 8 * distance ≤ Z.of_nat fuel →
  ring_fuel fuel center distance = Some (perimeter (ring_box center distance)).
Proof.
  intros Hd Hfuel. unfold ring_fuel.
  replace fuel with
    (steps (ring_box center distance) + (fuel - Z.to_nat (8 * distance)))%nat
    by (rewrite ring_box_steps by done; lia).
  apply walk_perimeter; simpl; lia.
Qed.

Lemma ring_perimeter center distance :
  1 ≤ distance → ring center distance = perimeter (ring_box center distance).
Proof.
  intros Hd. unfold ring. by rewrite ring_fuel_enough by (done || lia).
Qed.

Lemma mapM_ring_fuel fuel center max_distance :
  8 * max_distance ≤ Z.of_nat fuel →
  mapM (ring_fuel fuel center) (seqZ 1 max_distance) =
    Some (ring center <$> seqZ 1 max_distance).
Proof.
  intros Hfuel. apply mapM_Some_2, Forall2_fmap_r, Forall_Forall2_diag.
  apply Forall_forall. intros d [Hd1 Hd2]%elem_of_seqZ.
  simpl. by rewrite ring_fuel_enough, ring_perimeter by lia.
Qed.

Lemma join_rings center max_distance :
  mjoin (ring center <$> seqZ 1 max_distance) =
    search_outwards center max_distance.
Proof. by rewrite list_join_bind, list_fmap_bind. Qed.

(** The generator finishes: with [8 * max_distance] steps for each ring,
    or more, it yields [search_outwards center max_distance]. *)
Lemma search_outwards_fuel_enough fuel center max_distance :
  8 * max_distance ≤ Z.of_nat fuel →
  search_outwards_fuel fuel center max_distance =
    Some (search_outwards center max_distance).
Proof.
  intros Hfuel. unfold search_outwards_fuel.
  rewrite mapM_ring_fuel by done. simpl. by rewrite join_rings.
Qed.

(** *** Which cells a ring holds *)

Lemma elem_of_row x0 x1 y (p : point) :
  p ∈ row x0 x1 y ↔ p.2 = y ∧ x0 ≤ p.1 ≤ x1.
Proof.
  unfold row. rewrite list_elem_of_fmap. setoid_rewrite elem_of_seqZ.
  destruct p as [px py]; simpl. split.
  - intros (x & [= -> ->] & Hx). lia.
  - intros [-> Hx]. exists px. split; [done | lia].
Qed.

Lemma elem_of_sides b (p : point) :
  p ∈ sides b ↔ (p.1 = x_min b ∨ p.1 = x_max b) ∧ y_min b < p.2 < y_max b.
Proof.
  unfold sides. rewrite list_elem_of_bind. setoid_rewrite elem_of_seqZ.
  destruct p as [px py]; simpl. split.
  - intros (y & Hp & Hy). rewrite !elem_of_cons, elem_of_nil in Hp.
    destruct Hp as [[= -> ->] | [[= -> ->] | []]]; lia.
  - intros [Hx Hy]. exists py. rewrite !elem_of_cons.
    split; [|lia]. destruct Hx as [-> | ->]; auto.
Qed.

Lemma elem_of_perimeter b (p : point) :
  x_min b ≤ x_max b → y_min b ≤ y_max b →
  p ∈ perimeter b ↔
    x_min b ≤ p.1 ≤ x_max b ∧ y_min b ≤ p.2 ≤ y_max b ∧
    (p.1 = x_min b ∨ p.1 = x_max b ∨ p.2 = y_min b ∨ p.2 = y_max b).
Proof.
  intros Hx Hy. unfold perimeter.
  rewrite !elem_of_app, !elem_of_row, elem_of_sides. lia.
Qed.

Lemma NoDup_row x0 x1 y : NoDup (row x0 x1 y).
Proof.
  unfold row. apply NoDup_fmap_2; [|apply NoDup_seqZ].
  by intros x x' [= ->].
Qed.

Lemma NoDup_sides b : x_min b < x_max b → NoDup (sides b).
Proof.
  intros Hx. unfold sides. apply NoDup_bind; [| |apply NoDup_seqZ].
  - intros y y' p _ _ Hp Hp'. rewrite !elem_of_cons, elem_of_nil in Hp, Hp'.
    destruct_or?; simplify_eq; done || lia.
  - intros y _. repeat constructor; rewrite ?elem_of_cons, ?elem_of_nil;
      intros H; destruct_or?; simplify_eq; lia.
Qed.

Lemma NoDup_perimeter b :
  x_min b < x_max b → y_min b < y_max b → NoDup (perimeter b).
Proof.
  intros Hx Hy. unfold perimeter. rewrite !NoDup_app.
  split_and!; auto using NoDup_row, NoDup_sides.
  - intros p. rewrite elem_of_app, !elem_of_row, elem_of_sides. lia.
  - intros p. rewrite !elem_of_row, elem_of_sides. lia.
Qed.

(** A ring is the set of cells at its Chebyshev distance from the center. *)
Lemma elem_of_ring center distance (p : point) :
  1 ≤ distance → p ∈ ring center distance ↔ chebyshev center p = distance.
Proof.
  intros Hd. rewrite ring_perimeter, elem_of_perimeter by (simpl; lia).
  unfold chebyshev. simpl. lia.
Qed.

Lemma NoDup_ring center distance : 1 ≤ distance → NoDup (ring center distance).
Proof.
  intros Hd. rewrite ring_perimeter by done.
  apply NoDup_perimeter; simpl; lia.
Qed.

Lemma elem_of_search_outwards center max_distance (p : point) :
  p ∈ search_outwards center max_distance ↔
    1 ≤ chebyshev center p ≤ max_distance.
Proof.
  unfold search_outwards. rewrite list_elem_of_bind.
  setoid_rewrite elem_of_seqZ. split.
  - intros (d & Hp & Hd). apply elem_of_ring in Hp; lia.
  - intros Hp. exists (chebyshev center p). split; [|lia].
    by apply elem_of_ring; [lia|].
Qed.

Lemma NoDup_search_outwards center max_distance :
  NoDup (search_outwards center max_distance).
Proof.
  unfold search_outwards. apply NoDup_bind; [| |apply NoDup_seqZ].
  - intros d d' p [Hd _]%elem_of_seqZ [Hd' _]%elem_of_seqZ Hp Hp'.
    apply elem_of_ring in Hp, Hp'; congruence.
  - intros d [Hd _]%elem_of_seqZ. by apply NoDup_ring.
Qed.

(** *** The order of the rings *)

Lemma StronglySorted_const (d : Z) l :
  Forall (eq d) l → StronglySorted Z.le l.
Proof.
  induction 1 as [|x l <- Hl IH]; constructor; [done|].
  eapply Forall_impl; [exact Hl|]. intros y <-. lia.
Qed.

Lemma chebyshev_sorted_from center n d :
  1 ≤ d →
  StronglySorted Z.le
    (chebyshev center <$> (seqZ d (Z.of_nat n) ≫= ring center)).
Proof.
  revert d. induction n as [|n IH]; intros d Hd; [constructor|].
  rewrite seqZ_cons by lia.
  replace (Z.pred (Z.of_nat (S n))) with (Z.of_nat n) by lia.
  rewrite bind_cons, fmap_app. apply StronglySorted_app_2.
  - intros k k' (p & -> & Hp)%list_elem_of_fmap (p' & -> & Hp')%list_elem_of_fmap.
    apply elem_of_ring in Hp; [|done].
    apply list_elem_of_bind in Hp' as (d' & Hp' & [Hd' _]%elem_of_seqZ).
    apply elem_of_ring in Hp'; lia.
  - apply (StronglySorted_const d), Forall_fmap, Forall_forall.
    intros p Hp. simpl. by apply elem_of_ring in Hp.
  - apply IH. lia.
Qed.

Lemma chebyshev_sorted center max_distance :
  StronglySorted Z.le (chebyshev center <$> search_outwards center max_distance).
Proof.
  unfold search_outwards. destruct (Z.le_gt_cases 0 max_distance) as [HD|HD].
  - rewrite <-(Z2Nat.id max_distance) by done.
    by apply chebyshev_sorted_from.
  - rewrite seqZ_nil by lia. constructor.
Qed.

Lemma chebyshev_center center : chebyshev center center = 0.
Proof. unfold chebyshev. lia. Qed.

(** ** distance *)

Lemma squared_distance_nonneg a b : 0 ≤ squared_distance a b.
Proof. unfold squared_distance. nia. Qed.

(** The integer square root is the floor of the real one. *)
Lemma Zfloor_sqrt n : 0 ≤ n → Zfloor (sqrt (IZR n)) = Z.sqrt n.
Proof.
  intros Hn. apply Zfloor_eq.
  destruct (Z.sqrt_spec n Hn) as [Hlo Hhi]. unfold Z.succ in Hhi.
  pose proof (Z.sqrt_nonneg n) as Hv.
  set (v := Z.sqrt n) in *.
  apply IZR_le in Hlo, Hv. apply IZR_lt in Hhi.
  rewrite mult_IZR in Hlo, Hhi. rewrite plus_IZR in Hhi.
  split.
  - rewrite <-(sqrt_square (IZR v)) at 1 by done.
    by apply sqrt_le_1_alt.
  - rewrite <-(sqrt_square (IZR v + 1)) by lra.
    apply sqrt_lt_1_alt. split; [|done].
    apply IZR_le in Hn. exact Hn.
Qed.

Lemma floor_distance_floor a b : floor_distance a b = Zfloor (distance a b).
Proof.
  unfold floor_distance, distance.
  by rewrite Zfloor_sqrt by apply squared_distance_nonneg.
Qed.

(** ** The locator *)

Global Instance tuple_le_total : Total tuple_le.
Proof. intros a b. unfold tuple_le. lia. Qed.

Global Instance tuple_le_trans : Transitive tuple_le.
Proof. intros a b c. unfold tuple_le. lia. Qed.

Lemma sorted_Permutation (m : gmap quadrant point) :
  sorted m ≡ₚ elements (dom m).
Proof. apply merge_sort_Permutation. Qed.

Lemma elem_of_sorted (m : gmap quadrant point) q :
  q ∈ sorted m ↔ is_Some (m !! q).
Proof. by rewrite sorted_Permutation, elem_of_elements, elem_of_dom. Qed.

Lemma length_sorted (m : gmap quadrant point) : length (sorted m) = size m.
Proof. by rewrite sorted_Permutation, <-size_dom. Qed.

Lemma StronglySorted_sorted (m : gmap quadrant point) :
  StronglySorted tuple_le (sorted m).
Proof. apply StronglySorted_merge_sort; apply _. Qed.

Lemma length_report m position : length (report m position) = size m.
Proof. unfold report. by rewrite length_fmap, length_sorted. Qed.

Section locator_facts.
Context `{RainRadar}.
Variables (img : image) (position : point).

Lemma scan_full pts s :
  (4 ≤ size (quadrants s))%nat → scan img position pts s = s.
Proof. intros Hs. destruct pts; simpl; [done|]. by rewrite bool_decide_true. Qed.

Lemma scan_cons p pts s :
  (size (quadrants s) < 4)%nat →
  scan img position (p :: pts) s =
    scan img position pts (visit img position p s).
Proof. intros Hs. simpl. by rewrite bool_decide_false by lia. Qed.

(** Scanning a sequence is scanning its first part, then the rest. *)
Lemma scan_app pts pts' s :
  scan img position (pts ++ pts') s =
    scan img position pts' (scan img position pts s).
Proof.
  revert s. induction pts as [|p pts IH]; intros s; [done|].
  simpl. case_bool_decide; [|apply IH].
  by rewrite scan_full.
Qed.

Lemma size_visit p s :
  (size (quadrants (visit img position p s)) ≤ S (size (quadrants s)))%nat.
Proof.
  unfold visit; simpl. destruct (raining img p); [|lia].
  destruct (quadrants s !! _) eqn:Hq; [lia|].
  by rewrite map_size_insert_None.
Qed.

(** The dictionary never holds more than four keys. *)
Lemma size_scan pts s :
  (size (quadrants s) ≤ 4)%nat →
  (size (quadrants (scan img position pts s)) ≤ 4)%nat.
Proof.
  revert s. induction pts as [|p pts IH]; intros s Hs; [done|].
  simpl. case_bool_decide; [done|].
  apply IH. pose proof (size_visit p s). lia.
Qed.

Lemma size_scanned : (size (quadrants (scanned position img)) ≤ 4)%nat.
Proof. apply size_scan. simpl. rewrite map_size_empty. lia. Qed.

Lemma visit_out_of_range p s :
  pixels img p = None →
  visit img position p s = {| quadrants := quadrants s; reads := reads s ++ [p] |}.
Proof. intros Hp. unfold visit, raining. by rewrite Hp. Qed.

Lemma nearest_rain_scanned c :
  pixels img position = Some c → c ∉ rain_colours →
  nearest_rain position img =
    (Returned (report (quadrants (scanned position img)) position),
     reads (scanned position img)).
Proof.
  intros Hc Hdry. unfold nearest_rain. rewrite Hc.
  by rewrite bool_decide_false.
Qed.
End locator_facts.

(** The scan looks at the image only through [raining]. *)
Lemma scan_ext `{RainRadar} img img' position pts s :
  (∀ p, raining img' p = raining img p) →
  scan img' position pts s = scan img position pts s.
Proof.
  intros Hrain. revert s. induction pts as [|p pts IH]; intros s; [done|].
  simpl. case_bool_decide; [done|].
  rewrite IH. f_equal. unfold visit. by rewrite Hrain.
Qed.

(** Four resolved quadrants fill the dictionary. *)
Lemma four_quadrants_full (m : gmap quadrant point) :
  is_Some (m !! NW) → is_Some (m !! SW) →
  is_Some (m !! NE) → is_Some (m !! SE) →
  (4 ≤ size m)%nat.
Proof.
  intros Hnw Hsw Hne Hse. rewrite <-size_dom.
  change 4%nat with (size ({[NW; SW; NE; SE]} : gset quadrant)).
  apply subseteq_size. intros q.
  rewrite !elem_of_union, !elem_of_singleton, elem_of_dom.
  intros [[[-> | ->] | ->] | ->]; done.
Qed.

(** * The claims *)

(** ** The outward search *)

(** C4.  For every center and maximal distance, the generator finishes and
    yields one ring for each radius 1, 2, ..., in this order, all of a ring
    before any of the next; the ring of radius [r] holds each position on
    the perimeter of the square of half-width [r] around the center (the
    positions at Chebyshev distance [r]) exactly once; and no position
    occurs twice in the whole sequence. *)
Theorem search_outwards_covers_rings fuel center max_distance :
  8 * max_distance ≤ Z.of_nat fuel →
  ∃ rings : list (list point),
    mapM (ring_fuel fuel center) (seqZ 1 max_distance) = Some rings ∧
    search_outwards_fuel fuel center max_distance = Some (mjoin rings) ∧
    length rings = Z.to_nat max_distance ∧
    (∀ (i : nat) l, rings !! i = Some l →
       NoDup l ∧ ∀ p : point, p ∈ l ↔ chebyshev center p = Z.of_nat i + 1) ∧
    NoDup (mjoin rings).
Proof.
  intros Hfuel. exists (ring center <$> seqZ 1 max_distance).
  split_and!.
  - by apply mapM_ring_fuel.
  - rewrite join_rings. by apply search_outwards_fuel_enough.
  - by rewrite length_fmap, length_seqZ.
  - intros i l Hl. rewrite list_lookup_fmap in Hl.
    destruct (seqZ 1 max_distance !! i) as [r|] eqn:Hr; [|done].
    apply lookup_seqZ in Hr as [-> Hi]. injection Hl as <-.
    split; [apply NoDup_ring; lia|].
    intros p. rewrite elem_of_ring by lia. lia.
  - rewrite join_rings. apply NoDup_search_outwards.
Qed.

Lemma search_outwards_covers_rings_witness :
  8 * 2 ≤ Z.of_nat 16 ∧
  ∃ rings : list (list point),
    mapM (ring_fuel 16 (3, 4)) (seqZ 1 2) = Some rings ∧
    search_outwards_fuel 16 (3, 4) 2 = Some (mjoin rings) ∧
    length rings = Z.to_nat 2 ∧
    (∀ (i : nat) l, rings !! i = Some l →
       NoDup l ∧ ∀ p : point, p ∈ l ↔ chebyshev (3, 4) p = Z.of_nat i + 1) ∧
    NoDup (mjoin rings).
Proof.
  split; [lia | apply (search_outwards_covers_rings 16 (3, 4) 2); lia].
Defined.

(** C8, as the specification has it, fails on the ring of radius 1 around
    the origin: after the top edge the generator yields the left and the
    right cell of the middle row, and the bottom edge last. *)
Lemma edges_in_turn_counterexample :
  search_outwards_fuel 8 (0, 0) 1 =
    Some [(-1,-1); (0,-1); (1,-1); (-1,0); (1,0); (-1,1); (0,1); (1,1)] ∧
  edges_in_turn (ring_box (0, 0) 1) =
    [(-1,-1); (0,-1); (1,-1); (-1,1); (0,1); (1,1); (-1,0); (1,0)] ∧
  search_outwards_fuel 8 (0, 0) 1 ≠ Some (edges_in_turn (ring_box (0, 0) 1)).
Proof. split_and!; [reflexivity | reflexivity | discriminate]. Qed.

(** C8, amended.  Within each ring the generator yields the top edge left
    to right, then for each row strictly between the top and the bottom
    edge, from top to bottom, its left cell followed by its right cell,
    then the bottom edge left to right. *)
Theorem search_outwards_ring_order fuel center max_distance :
  8 * max_distance ≤ Z.of_nat fuel →
  search_outwards_fuel fuel center max_distance =
    Some (seqZ 1 max_distance ≫= λ r,
            let b := ring_box center r in
            row (x_min b) (x_max b) (y_min b) ++
            (seqZ (y_min b + 1) (y_max b - y_min b - 1)
               ≫= (λ y, [(x_min b, y); (x_max b, y)])) ++
            row (x_min b) (x_max b) (y_max b)).
Proof.
  intros Hfuel. rewrite search_outwards_fuel_enough by done.
  f_equal. unfold search_outwards. apply Forall_bind_ext, Forall_forall.
  intros r [Hr _]%elem_of_seqZ. by rewrite ring_perimeter.
Qed.

Lemma search_outwards_ring_order_witness :
  8 * 1 ≤ Z.of_nat 8 ∧
  search_outwards_fuel 8 (0, 0) 1 =
    Some (seqZ 1 1 ≫= λ r,
            let b := ring_box (0, 0) r in
            row (x_min b) (x_max b) (y_min b) ++
            (seqZ (y_min b + 1) (y_max b - y_min b - 1)
               ≫= (λ y, [(x_min b, y); (x_max b, y)])) ++
            row (x_min b) (x_max b) (y_max b)).
Proof.
  split; [lia | apply (search_outwards_ring_order 8 (0, 0) 1); lia].
Defined.

(** C10.  For every center and maximal distance, every position yielded
    during the ring of radius [r] is at Chebyshev distance exactly [r] from
    the center; the center itself is never yielded; and along the yielded
    sequence the Chebyshev distance from the center never decreases. *)
Theorem search_outwards_chebyshev fuel center max_distance :
  8 * max_distance ≤ Z.of_nat fuel →
  (∀ r, 1 ≤ r ≤ max_distance →
     ∃ l, ring_fuel fuel center r = Some l ∧
          ∀ p : point, p ∈ l → chebyshev center p = r) ∧
  ∃ l, search_outwards_fuel fuel center max_distance = Some l ∧
       (center ∉ l) ∧
       StronglySorted Z.le (chebyshev center <$> l).
Proof.
  intros Hfuel. split.
  - intros r Hr. exists (ring center r). split.
    + by rewrite ring_fuel_enough, ring_perimeter by lia.
    + intros p Hp. apply elem_of_ring in Hp; lia.
  - exists (search_outwards center max_distance). split_and!.
    + by apply search_outwards_fuel_enough.
    + rewrite elem_of_search_outwards, chebyshev_center. lia.
    + apply chebyshev_sorted.
Qed.

Lemma search_outwards_chebyshev_witness :
  8 * 3 ≤ Z.of_nat 24 ∧
  ∃ l, search_outwards_fuel 24 (0, 0) 3 = Some l ∧
       ((0, 0) ∉ l) ∧
       StronglySorted Z.le (chebyshev (0, 0) <$> l).
Proof.
  split; [lia | apply (search_outwards_chebyshev 24 (0, 0) 3); lia].
Defined.

(** ** The locator *)

Section locator_claims.
Context `{RainRadar}.

(** C3.  When the colour at the position is a rain colour, [nearest_rain]
    returns [[0, 0, 0, 0]] whatever the rest of the image holds, and the
    only call of the accessor is the one at the position. *)
Theorem raining_at_position position img c :
  pixels img position = Some c → c ∈ rain_colours →
  nearest_rain position img = (Returned [0; 0; 0; 0], [position]).
Proof.
  intros Hc Hrain. unfold nearest_rain. rewrite Hc.
  by rewrite bool_decide_true.
Qed.

(** C9.  When the position itself is outside the image, the lookup of its
    colour fails and the [IndexError] leaves [nearest_rain]: no list, not
    even a partial one, is returned. *)
Theorem position_out_of_range position img :
  pixels img position = None →
  nearest_rain position img = (IndexError, [position]) ∧
  ∀ result, (nearest_rain position img).1 ≠ Returned result.
Proof.
  intros Hc. unfold nearest_rain. by rewrite Hc.
Qed.

(** C7.  When the position is inside the image, [nearest_rain] returns a
    list: no [IndexError] reaches the caller.  A position of the search
    that is outside the image records nothing, and the scan goes on with
    the positions after it; the call behaves as on any image that has
    the same rain and no rain where this one fails. *)
Theorem out_of_range_skipped position img :
  is_Some (pixels img position) →
  (∃ result, (nearest_rain position img).1 = Returned result) ∧
  (∀ p pts s, pixels img p = None → (size (quadrants s) < 4)%nat →
     scan img position (p :: pts) s =
       scan img position pts
         {| quadrants := quadrants s; reads := reads s ++ [p] |}) ∧
  (∀ img', image_size img' = image_size img →
     is_Some (pixels img' position) →
     (∀ p, raining img' p = raining img p) →
     nearest_rain position img' = nearest_rain position img).
Proof.
  intros [c Hc]. split_and!.
  - unfold nearest_rain. rewrite Hc. case_bool_decide; eauto.
  - intros p pts s Hp Hs. by rewrite scan_cons, visit_out_of_range.
  - intros img' Hsize [c' Hc'] Hrain.
    pose proof (Hrain position) as Hpos. unfold raining in Hpos.
    unfold nearest_rain, scanned. rewrite Hc, Hc' in *. rewrite Hpos, Hsize.
    by rewrite (scan_ext img img').
Qed.

(** C6.  Split the positions of the search anywhere.  If the scan of the
    first part leaves the four quadrants NW, SW, NE and SE resolved, the
    accessor is not called again: the calls of the whole run are those
    made up to there. *)
Theorem no_reads_once_resolved position img c pre post :
  pixels img position = Some c → c ∉ rain_colours →
  search_outwards position ((image_size img).1 `max` (image_size img).2)
    = pre ++ post →
  is_Some (quadrants (scan img position pre (start position)) !! NW) →
  is_Some (quadrants (scan img position pre (start position)) !! SW) →
  is_Some (quadrants (scan img position pre (start position)) !! NE) →
  is_Some (quadrants (scan img position pre (start position)) !! SE) →
  (nearest_rain position img).2 =
    reads (scan img position pre (start position)).
Proof.
  intros Hc Hdry Hsplit Hnw Hsw Hne Hse.
  rewrite (nearest_rain_scanned _ _ c) by done. simpl.
  unfold scanned. rewrite Hsplit, scan_app.
  by rewrite scan_full by by apply four_quadrants_full.
Qed.

(** C5.  When the scan has recorded the position [p] for a quadrant, the
    entry of the result for that quadrant (the entry at the rank of the
    quadrant's key among the sorted keys) is the floor of the Euclidean
    distance between [p] and the position: the integer [v], not negative,
    with [v * v <= (p.x - x)^2 + (p.y - y)^2 < (v + 1) * (v + 1)], which
    is the floor of the real square root of that sum. *)
Theorem reported_distance_floor position img c q p :
  pixels img position = Some c → c ∉ rain_colours →
  quadrants (scanned position img) !! q = Some p →
  ∃ (i : nat) (v : Z) result,
    (nearest_rain position img).1 = Returned result ∧
    length result = length (sorted (quadrants (scanned position img))) ∧
    sorted (quadrants (scanned position img)) !! i = Some q ∧
    result !! i = Some v ∧
    0 ≤ v ∧
    v * v ≤ (p.1 - position.1) ^ 2 + (p.2 - position.2) ^ 2
      < (v + 1) * (v + 1) ∧
    v = Zfloor
          (sqrt (IZR ((p.1 - position.1) ^ 2 + (p.2 - position.2) ^ 2))).
Proof.
  intros Hc Hdry Hq.
  assert (q ∈ sorted (quadrants (scanned position img))) as Hin
    by (apply elem_of_sorted; eauto).
  apply list_elem_of_lookup in Hin as [i Hi].
  exists i, (floor_distance p position),
    (report (quadrants (scanned position img)) position).
  rewrite (nearest_rain_scanned _ _ c) by done.
  pose proof (squared_distance_nonneg p position) as Hnn.
  pose proof (Z.sqrt_spec _ Hnn) as Hsqrt.
  unfold floor_distance, squared_distance in *.
  split_and!.
  - done.
  - unfold report. by rewrite length_fmap.
  - done.
  - unfold report. rewrite list_lookup_fmap, Hi. simpl.
    by rewrite (lookup_total_correct _ _ _ Hq).
  - apply Z.sqrt_nonneg.
  - lia.
  - lia.
  - symmetry. by apply Zfloor_sqrt.
Qed.
End locator_claims.

(** Whatever the image, a returned list has at most four entries. *)
Lemma nearest_rain_at_most_four `{RainRadar} position img result :
  (nearest_rain position img).1 = Returned result → (length result ≤ 4)%nat.
Proof.
  unfold nearest_rain. destruct (pixels img position) as [c|]; [|done].
  case_bool_decide; simpl; intros [= <-]; [done|].
  rewrite length_report. apply size_scanned.
Qed.

(** *** On the Met Eireann palette *)

Lemma blue_is_rain : blue ∈ @rain_colours MetEireannRainRadar.
Proof. apply (bool_decide_unpack _). by vm_compute. Qed.

Lemma white_is_dry : white ∉ @rain_colours MetEireannRainRadar.
Proof. apply (bool_decide_unpack _). by vm_compute. Qed.

Lemma raining_at_position_witness :
  pixels corners (0, 0) = Some blue ∧
  blue ∈ @rain_colours MetEireannRainRadar ∧
  @nearest_rain MetEireannRainRadar (0, 0) corners =
    (Returned [0; 0; 0; 0], [(0, 0)]).
Proof.
  split_and!; [reflexivity | apply blue_is_rain |].
  apply (@raining_at_position MetEireannRainRadar (0, 0) corners blue);
    [reflexivity | apply blue_is_rain].
Defined.

Lemma position_out_of_range_witness :
  pixels corners (-1, 0) = None ∧
  @nearest_rain MetEireannRainRadar (-1, 0) corners = (IndexError, [(-1, 0)]).
Proof.
  split; [reflexivity|].
  apply (@position_out_of_range MetEireannRainRadar (-1, 0) corners).
  reflexivity.
Defined.

Lemma out_of_range_skipped_witness :
  is_Some (pixels corners (1, 0)) ∧
  ∃ result, (@nearest_rain MetEireannRainRadar (1, 0) corners).1 = Returned result.
Proof.
  assert (is_Some (pixels corners (1, 0))) as Hin by (exists white; reflexivity).
  split; [exact Hin|].
  apply (@out_of_range_skipped MetEireannRainRadar (1, 0) corners Hin).
Defined.

Lemma no_reads_once_resolved_witness :
  search_outwards (2, 2) 5 =
    search_outwards (2, 2) 2 ++ (seqZ 3 3 ≫= ring (2, 2)) ∧
  (@nearest_rain MetEireannRainRadar (2, 2) corners).2 =
    reads (@scan MetEireannRainRadar corners (2, 2)
             (search_outwards (2, 2) 2) (start (2, 2))).
Proof.
  assert (search_outwards (2, 2) 5 =
    search_outwards (2, 2) 2 ++ (seqZ 3 3 ≫= ring (2, 2))) as Hsplit
    by (vm_compute; reflexivity).
  split; [exact Hsplit|].
  apply (@no_reads_once_resolved MetEireannRainRadar (2, 2) corners white
           (search_outwards (2, 2) 2) (seqZ 3 3 ≫= ring (2, 2))).
  - reflexivity.
  - apply white_is_dry.
  - exact Hsplit.
  - exists (0, 0). vm_compute. reflexivity.
  - exists (0, 4). vm_compute. reflexivity.
  - exists (4, 0). vm_compute. reflexivity.
  - exists (4, 4). vm_compute. reflexivity.
Defined.

Lemma reported_distance_floor_witness :
  quadrants (@scanned MetEireannRainRadar (2, 2) corners) !! NW = Some (0, 0) ∧
  ∃ (i : nat) result,
    (@nearest_rain MetEireannRainRadar (2, 2) corners).1 = Returned result ∧
    sorted (quadrants (@scanned MetEireannRainRadar (2, 2) corners)) !! i
      = Some NW ∧
    result !! i = Some 2 ∧
    2 * 2 ≤ (0 - 2) ^ 2 + (0 - 2) ^ 2 < 3 * 3.
Proof.
  assert (quadrants (@scanned MetEireannRainRadar (2, 2) corners) !! NW
          = Some (0, 0)) as Hnw by (vm_compute; reflexivity).
  split; [exact Hnw|].
  destruct (@reported_distance_floor MetEireannRainRadar (2, 2) corners white
              NW (0, 0)) as (i & v & result & Hres & _ & Hi & Hv & Hv0 & Hsq & _);
    [reflexivity | apply white_is_dry | exact Hnw |].
  simpl in Hsq. assert (v = 2) as -> by nia.
  exists i, result. split_and!; [exact Hres | exact Hi | exact Hv | lia | lia].
Defined.

(** C1 does not hold of the code.  With rain in the four corners and one
    rain pixel straight above the position, the list returned is
    [[2, 2, 1, 2]]: its third entry is the distance to the pixel above,
    recorded under the key [(0, -1)], which is none of NW, SW, NE, SE and
    sorts between SW and NE; the dictionary is then full and the rain to the
    south-east is never recorded. *)
Theorem axis_key_in_result :
  (@nearest_rain MetEireannRainRadar (2, 2) corners_and_north).1
    = Returned [2; 2; 1; 2] ∧
  sorted (quadrants (@scanned MetEireannRainRadar (2, 2) corners_and_north))
    = [NW; SW; (0, -1); NE] ∧
  quadrants (@scanned MetEireannRainRadar (2, 2) corners_and_north) !! (0, -1)
    = Some (2, 1) ∧
  quadrants (@scanned MetEireannRainRadar (2, 2) corners_and_north) !! SE
    = None ∧
  raining (H := MetEireannRainRadar) corners_and_north (4, 4) = true.
Proof. split_and!; vm_compute; reflexivity. Qed.

(** C2 does not hold of the code.  Rain on the row and the column of the
    position is recorded under keys with a zero, counts towards the four
    keys that end the scan, and is reported: with rain right next to the
    position on its row and column, the list returned is [[1, 1, 1, 1]] and
    no quadrant is resolved, while the same image without these four pixels
    gives [[2, 2, 2, 2]]. *)
Theorem axis_rain_recorded :
  (@nearest_rain MetEireannRainRadar (2, 2) corners_and_cross).1
    = Returned [1; 1; 1; 1] ∧
  sorted (quadrants (@scanned MetEireannRainRadar (2, 2) corners_and_cross))
    = [(-1, 0); (0, -1); (0, 1); (1, 0)] ∧
  (@nearest_rain MetEireannRainRadar (2, 2) corners).1
    = Returned [2; 2; 2; 2] ∧
  sorted (quadrants (@scanned MetEireannRainRadar (2, 2) corners))
    = [NW; SW; NE; SE].
Proof. split_and!; vm_compute; reflexivity. Qed.

(** * Further properties *)

(** ** The outward search *)

Lemma length_row x0 x1 y : length (row x0 x1 y) = Z.to_nat (x1 - x0 + 1).
Proof. unfold row. by rewrite length_fmap, length_seqZ. Qed.

Lemma length_sides b :
  length (sides b) = (2 * Z.to_nat (y_max b - y_min b - 1))%nat.
Proof.
  unfold sides. rewrite <-(length_seqZ (y_min b + 1)).
  induction (seqZ _ _) as [|y ys IH]; [done|].
  rewrite bind_cons, length_app, IH. simpl. lia.
Qed.

Lemma length_ring center distance :
  1 ≤ distance → Z.of_nat (length (ring center distance)) = 8 * distance.
Proof.
  intros Hd. rewrite ring_perimeter by done. unfold perimeter.
  rewrite !length_app, !length_row, length_sides. simpl. lia.
Qed.

Lemma length_search_outwards_nat center (n : nat) :
  Z.of_nat (length (search_outwards center (Z.of_nat n)))
    = 4 * Z.of_nat n * (Z.of_nat n + 1).
Proof.
  unfold search_outwards. induction n as [|n IH]; [done|].
  rewrite seqZ_S, bind_app, length_app, Nat2Z.inj_add, IH.
  simpl. rewrite app_nil_r, length_ring by lia. lia.
Qed.

(** X1.  The ring at distance [r] has [8 * r] positions, and the search up
    to [max_distance] yields [4 * max_distance * (max_distance + 1)]
    positions. *)
Theorem length_search_outwards center max_distance :
  0 ≤ max_distance →
  (∀ r, 1 ≤ r ≤ max_distance →
     ∃ l, ring_fuel (Z.to_nat (8 * max_distance)) center r = Some l ∧
          Z.of_nat (length l) = 8 * r) ∧
  ∃ l, search_outwards_fuel (Z.to_nat (8 * max_distance)) center max_distance
         = Some l ∧
       Z.of_nat (length l) = 4 * max_distance * (max_distance + 1).
Proof.
  intros HD. split.
  - intros r Hr. exists (ring center r). split; [|apply length_ring; lia].
    by rewrite ring_fuel_enough, ring_perimeter by lia.
  - exists (search_outwards center max_distance). split.
    + apply search_outwards_fuel_enough. lia.
    + rewrite <-(Z2Nat.id max_distance) at 1 by done.
      rewrite length_search_outwards_nat. lia.
Qed.

Lemma length_search_outwards_witness :
  0 ≤ 3 ∧
  ∃ l, search_outwards_fuel (Z.to_nat (8 * 3)) (5, 7) 3 = Some l ∧
       Z.of_nat (length l) = 4 * 3 * (3 + 1).
Proof. split; [lia | apply (length_search_outwards (5, 7) 3); lia]. Defined.

(** *** Moving the center *)

Lemma advance_shift d b xy :
  advance (shift_box d b) (shift d xy) = shift d (advance b xy).
Proof.
  destruct xy as [x y]. unfold advance, shift; simpl.
  repeat match goal with
         | |- context [?a =? ?b] => destruct (Z.eqb_spec a b)
         end; simpl; try lia; f_equal; lia.
Qed.

Lemma inside_shift d b (xy : point) :
  ((shift d xy).1 <=? x_max (shift_box d b)) &&
  ((shift d xy).2 <=? y_max (shift_box d b))
  = (xy.1 <=? x_max b) && (xy.2 <=? y_max b).
Proof.
  simpl. f_equal.
  - destruct (Z.leb_spec xy.1 (x_max b)); [apply Z.leb_le | apply Z.leb_gt]; lia.
  - destruct (Z.leb_spec xy.2 (y_max b)); [apply Z.leb_le | apply Z.leb_gt]; lia.
Qed.

Lemma walk_shift d fuel b xy :
  walk fuel (shift_box d b) (shift d xy)
    = (λ l : list point, shift d <$> l) <$> walk fuel b xy.
Proof.
  revert xy. induction fuel as [|fuel IH]; intros xy.
  - change (walk 0 (shift_box d b) (shift d xy)) with
      (if ((shift d xy).1 <=? x_max (shift_box d b)) &&
          ((shift d xy).2 <=? y_max (shift_box d b))
       then None else Some (@nil point)).
    rewrite inside_shift. simpl. by destruct (_ && _).
  - change (walk (S fuel) (shift_box d b) (shift d xy)) with
      (if ((shift d xy).1 <=? x_max (shift_box d b)) &&
          ((shift d xy).2 <=? y_max (shift_box d b))
       then cons (shift d xy)
              <$> walk fuel (shift_box d b) (advance (shift_box d b) (shift d xy))
       else Some []).
    rewrite inside_shift, advance_shift, IH. simpl.
    destruct (_ && _); [|done]. by destruct (walk _ _ _).
Qed.

Lemma ring_fuel_shift d fuel center distance :
  ring_fuel fuel (shift d center) distance
    = (λ l : list point, shift d <$> l) <$> ring_fuel fuel center distance.
Proof.
  unfold ring_fuel. rewrite <-walk_shift. f_equal.
  - unfold ring_box, shift_box; simpl. f_equal; lia.
  - unfold shift; simpl. f_equal; lia.
Qed.

Lemma ring_shift d center distance :
  ring (shift d center) distance = shift d <$> ring center distance.
Proof.
  unfold ring. rewrite ring_fuel_shift. by destruct (ring_fuel _ _ _).
Qed.

(** X2.  The search around a moved center is the search around the center,
    moved: the sequence depends on the center only through a translation. *)
Theorem search_outwards_shift d fuel center max_distance :
  search_outwards_fuel fuel (shift d center) max_distance
    = (λ l : list point, shift d <$> l)
        <$> search_outwards_fuel fuel center max_distance.
Proof.
  unfold search_outwards_fuel.
  induction (seqZ 1 max_distance) as [|r rs IH]; [done|].
  simpl in *. rewrite ring_fuel_shift.
  destruct (ring_fuel fuel center r) as [l|]; [|done]. simpl.
  destruct (mapM (ring_fuel fuel (shift d center)) rs) as [ls'|];
    destruct (mapM (ring_fuel fuel center) rs) as [ls|]; simpl in *;
    try done.
  injection IH as IH. by rewrite IH, fmap_app.
Qed.

(** ** The locator *)

Lemma head_filter_Some {A} (P : A → Prop) `{∀ x, Decision (P x)} l x :
  head (filter P l) = Some x →
  ∃ l1 l2, l = l1 ++ x :: l2 ∧ P x ∧ ∀ y, y ∈ l1 → ¬ P y.
Proof.
  induction l as [|a l IH]; [done|]. rewrite filter_cons.
  destruct (decide (P a)) as [Ha|Ha]; simpl.
  - intros [= ->]. exists [], l. split_and!; [done..|]. by intros y ?%elem_of_nil.
  - intros (l1 & l2 & -> & Hx & Hl1)%IH. exists (a :: l1), l2.
    split_and!; [done..|]. intros y [->|Hy]%elem_of_cons; auto.
Qed.

Lemma report_empty position : report ∅ position = [].
Proof. unfold report, sorted. by rewrite dom_empty_L, elements_empty. Qed.

Lemma chebyshev_squared position (p : point) :
  chebyshev position p * chebyshev position p ≤ squared_distance p position
  ∧ squared_distance p position
      ≤ 2 * (chebyshev position p * chebyshev position p).
Proof.
  unfold chebyshev, squared_distance. rewrite !Z.pow_2_r.
  destruct p as [x y], position as [cx cy]; simpl. nia.
Qed.

Section locator_more.
Context `{RainRadar}.
Variables (img : image) (position : point).

Lemma lookup_visit p s q :
  quadrants (visit img position p s) !! q =
    match quadrants s !! q with
    | Some p' => Some p'
    | None => head (rain_under img position q [p])
    end.
Proof.
  unfold visit, rain_under; simpl. rewrite filter_cons, filter_nil.
  destruct (raining img p) eqn:Hrain.
  - destruct (decide (quadrant_of position p = q)) as [<-|Hq].
    + rewrite decide_True by done.
      destruct (quadrants s !! _) eqn:Hs; [by rewrite Hs|].
      by rewrite lookup_insert_eq.
    + rewrite decide_False by (by intros [_ ?]).
      destruct (quadrants s !! quadrant_of position p);
        [|rewrite lookup_insert_ne by done]; by destruct (quadrants s !! q).
  - rewrite decide_False by (by intros [? _]). by destruct (quadrants s !! q).
Qed.

(** What a scan leaves: it visits a first part of the sequence and stops
    there only at the end or on a full dictionary; under each key it has
    the first raining position with that key. *)
Lemma scan_split pts s :
  ∃ pre post,
    pts = pre ++ post ∧
    (post = [] ∨ (4 ≤ size (quadrants (scan img position pts s)))%nat) ∧
    reads (scan img position pts s) = reads s ++ pre ∧
    ∀ q, quadrants (scan img position pts s) !! q =
           match quadrants s !! q with
           | Some p' => Some p'
           | None => head (rain_under img position q pre)
           end.
Proof.
  revert s. induction pts as [|p pts IH]; intros s.
  - exists [], []. split; [done|]. split; [by left|].
    split; [by rewrite app_nil_r|].
    intros q. simpl. by destruct (quadrants s !! q).
  - simpl. case_bool_decide as Hfull.
    + exists [], (p :: pts). split; [done|]. split; [by right|].
      split; [by rewrite app_nil_r|].
      intros q. by destruct (quadrants s !! q).
    + destruct (IH (visit img position p s)) as (pre & post & -> & Hend & Hreads & Hq).
      exists (p :: pre), post. split_and!; [done|done| |].
      * rewrite Hreads. simpl. by rewrite <-app_assoc.
      * intros q. rewrite Hq, lookup_visit.
        destruct (quadrants s !! q); [done|].
        unfold rain_under. rewrite (filter_cons _ p pre), filter_cons, filter_nil.
        by destruct (decide _).
Qed.

Lemma scanned_split :
  ∃ pre post,
    search_outwards position ((image_size img).1 `max` (image_size img).2)
      = pre ++ post ∧
    (post = [] ∨ size (quadrants (scanned position img)) = 4%nat) ∧
    reads (scanned position img) = position :: pre ∧
    ∀ q, quadrants (scanned position img) !! q
           = head (rain_under img position q pre).
Proof.
  destruct (scan_split
    (search_outwards position ((image_size img).1 `max` (image_size img).2))
    (start position)) as (pre & post & Hsplit & Hend & Hreads & Hq).
  exists pre, post. split_and!; [done| |done|].
  - destruct Hend as [?|Hfull]; [by left|right].
    pose proof (size_scanned img position). unfold scanned in *. lia.
  - intros q. unfold scanned. by rewrite Hq.
Qed.
End locator_more.

Global Instance tuple_le_antisymm : AntiSymm (=) tuple_le.
Proof.
  intros [a b] [c d]. unfold tuple_le; simpl. intros Hab Hba. f_equal; lia.
Qed.

Lemma StronglySorted_filter {A} (R : relation A) (P : A → Prop)
    `{∀ x, Decision (P x)} l :
  StronglySorted R l → StronglySorted R (filter P l).
Proof.
  induction 1 as [|x l Hl IH Hx]; [constructor|].
  rewrite filter_cons. destruct (decide (P x)); [|done].
  constructor; [done|]. apply Forall_forall.
  intros y [_ Hy]%list_elem_of_filter. by eapply Forall_forall in Hx.
Qed.

Lemma elem_of_four (q : quadrant) :
  q ∈ ({[NW; SW; NE; SE]} : gset quadrant) ↔ q ∈ [NW; SW; NE; SE].
Proof.
  rewrite !elem_of_cons, elem_of_nil, !elem_of_union, !elem_of_singleton.
  tauto.
Qed.

Lemma cmp_sign a b : a ≠ b → cmp a b = -1 ∨ cmp a b = 1.
Proof.
  intros Hab. unfold cmp. destruct (Z.compare_spec a b); auto. done.
Qed.

Section locator_properties.
Context `{RainRadar}.
Variables (img : image) (position : point).

Local Abbreviation spiral :=
  (search_outwards position ((image_size img).1 `max` (image_size img).2)).
Local Abbreviation found := (quadrants (scanned position img)).

Lemma position_not_searched max_distance :
  position ∉ search_outwards position max_distance.
Proof. rewrite elem_of_search_outwards, chebyshev_center. lia. Qed.

Lemma rain_under_is_Some pts (p : point) :
  p ∈ pts → raining img p = true →
  is_Some (head (rain_under img position (quadrant_of position p) pts)).
Proof.
  intros Hp Hrain. apply head_is_Some. intros Hnil.
  assert (p ∈ rain_under img position (quadrant_of position p) pts) as Hin
    by by apply list_elem_of_filter.
  rewrite Hnil in Hin. by apply elem_of_nil in Hin.
Qed.

(** A recorded position is a raining position of the search, under its
    own key. *)
Lemma found_rain q p :
  found !! q = Some p →
  raining img p = true ∧ quadrant_of position p = q ∧ p ∈ spiral.
Proof.
  destruct (scanned_split img position) as (pre & post & Hsplit & _ & _ & Hq).
  rewrite Hq. intros Hp%head_Some_elem_of.
  apply list_elem_of_filter in Hp as [[Hrain Hkey] Hp].
  split_and!; [done..|]. rewrite Hsplit. apply elem_of_app. by left.
Qed.

(** Without rain in the search, the scan reads every position and
    records nothing. *)
Lemma scanned_dry :
  (∀ p, p ∈ spiral → raining img p = false) →
  found = ∅ ∧ reads (scanned position img) = position :: spiral.
Proof.
  intros Hdry.
  assert (found = ∅) as Hempty.
  { apply map_empty. intros q.
    destruct (found !! q) as [p|] eqn:Hp; [|done].
    apply found_rain in Hp as (Hrain & _ & Hp).
    rewrite Hdry in Hrain by done. done. }
  split; [done|].
  destruct (scanned_split img position) as (pre & post & Hsplit & Hend & Hreads & _).
  rewrite Hreads, Hsplit. destruct Hend as [->|Hfull].
  - by rewrite app_nil_r.
  - rewrite Hempty, map_size_empty in Hfull. done.
Qed.

(** X3.  The accessor is called at the position and then at the positions
    of the search, in order, up to where the scan stops; it is never
    called twice at the same position. *)
Theorem reads_in_order_once :
  ∃ pre post,
    spiral = pre ++ post ∧
    (nearest_rain position img).2 = position :: pre ∧
    NoDup ((nearest_rain position img).2).
Proof.
  assert (∀ pre post, spiral = pre ++ post → NoDup (position :: pre)) as Hnodup.
  { intros pre post Hsplit. apply NoDup_cons. split.
    - intros Hin. apply (position_not_searched
        ((image_size img).1 `max` (image_size img).2)).
      rewrite Hsplit. apply elem_of_app. by left.
    - pose proof (NoDup_search_outwards position
        ((image_size img).1 `max` (image_size img).2)) as Hnd.
      rewrite Hsplit in Hnd. by apply NoDup_app in Hnd as [? _]. }
  unfold nearest_rain. destruct (pixels img position) as [c|].
  - case_bool_decide; simpl.
    + exists [], spiral. split_and!; [done..|]. by apply (Hnodup [] spiral).
    + destruct (scanned_split img position)
        as (pre & post & Hsplit & _ & Hreads & _).
      exists pre, post. rewrite Hreads. split_and!; [done..|]. by eapply Hnodup.
  - exists [], spiral. split_and!; [done..|]. by apply (Hnodup [] spiral).
Qed.

(** X4.  When the position is dry and it rains nowhere in the search, the
    list returned is empty, and the accessor has been called at every
    position of the search. *)
Theorem nothing_found c :
  pixels img position = Some c → c ∉ rain_colours →
  (∀ p, p ∈ spiral → raining img p = false) →
  nearest_rain position img = (Returned [], position :: spiral).
Proof.
  intros Hc Hdry Hnone. rewrite (nearest_rain_scanned _ _ c) by done.
  destruct (scanned_dry Hnone) as [-> ->]. by rewrite report_empty.
Qed.

(** X6.  The position recorded under a key is the first raining position
    of the search with that key: the search reaches it after positions of
    which none is raining with that key.  So no raining position with the
    same key is on a smaller ring: the recorded one is nearest in Chebyshev
    distance, and at most [sqrt 2] times as far, in Euclidean distance, as
    any other rain with that key. *)
Theorem found_first q p :
  found !! q = Some p →
  raining img p = true ∧ quadrant_of position p = q ∧
  (∃ before after,
     spiral = before ++ p :: after ∧
     ∀ p', p' ∈ before →
       ¬ (raining img p' = true ∧ quadrant_of position p' = q)) ∧
  ∀ p', p' ∈ spiral → raining img p' = true → quadrant_of position p' = q →
    chebyshev position p ≤ chebyshev position p' ∧
    squared_distance p position ≤ 2 * squared_distance p' position.
Proof.
  intros Hq. destruct (found_rain _ _ Hq) as (Hrain & Hkey & Hp).
  destruct (scanned_split img position)
    as (pre & post & Hsplit & _ & _ & Hfound).
  rewrite Hfound in Hq.
  apply head_filter_Some in Hq as (l1 & l2 & -> & _ & Hl1).
  rewrite <-app_assoc in Hsplit. simpl in Hsplit.
  split_and!; [done..| |].
  { exists l1, (l2 ++ post). by split. }
  intros p' Hp' Hrain' Hkey'.
  assert (chebyshev position p ≤ chebyshev position p') as Hle.
  { pose proof (chebyshev_sorted position
      ((image_size img).1 `max` (image_size img).2)) as Hsorted.
    rewrite Hsplit in Hp', Hsorted.
    rewrite fmap_app in Hsorted. apply StronglySorted_app_1_r in Hsorted.
    csimpl in Hsorted.
    apply StronglySorted_cons in Hsorted as [Hall _].
    apply elem_of_app in Hp' as [Hp'|Hp'].
    - by destruct (Hl1 _ Hp').
    - apply elem_of_cons in Hp' as [->|Hp']; [lia|].
      rewrite Forall_fmap, Forall_forall in Hall. by apply Hall. }
  split; [done|].
  pose proof (chebyshev_squared position p) as [_ Hup].
  pose proof (chebyshev_squared position p') as [Hlo _].
  assert (0 ≤ chebyshev position p) by (unfold chebyshev; lia).
  nia.
Qed.

(** X7.  Rain within the search is not missed unless the dictionary is
    full: at the end, the key of every raining position of the search is
    resolved, or four keys are. *)
Theorem rain_resolved_or_full (p : point) :
  p ∈ spiral → raining img p = true →
  is_Some (found !! quadrant_of position p) ∨ size found = 4%nat.
Proof.
  intros Hp Hrain.
  destruct (scanned_split img position) as (pre & post & Hsplit & Hend & _ & Hq).
  destruct Hend as [->|Hfull]; [left|by right].
  rewrite app_nil_r in Hsplit. rewrite Hq, <-Hsplit. by apply rain_under_is_Some.
Qed.
(** X8.  When no rain of the search lies on the row or the column of the
    position, the list returned has one entry for each of NW, SW, NE, SE
    that has rain within the search, in this order, and nothing else. *)
Theorem quadrants_in_order c :
  pixels img position = Some c → c ∉ rain_colours →
  (∀ p : point, p ∈ spiral → raining img p = true →
     p.1 ≠ position.1 ∧ p.2 ≠ position.2) →
  (nearest_rain position img).1 =
    Returned ((λ q, floor_distance (found !!! q) position)
                <$> filter (λ q, is_Some (found !! q)) [NW; SW; NE; SE]) ∧
  ∀ q, q ∈ [NW; SW; NE; SE] →
    (is_Some (found !! q) ↔
     ∃ p, p ∈ spiral ∧ raining img p = true ∧ quadrant_of position p = q).
Proof.
  intros Hc Hdry Haxis.
  assert (∀ q, is_Some (found !! q) → q ∈ [NW; SW; NE; SE]) as Hkeys.
  { intros q [p Hp]. apply found_rain in Hp as (Hrain & <- & Hp).
    destruct (Haxis p Hp Hrain) as [Hx Hy]. unfold quadrant_of.
    destruct (cmp_sign _ _ Hx) as [-> | ->];
      destruct (cmp_sign _ _ Hy) as [-> | ->];
      apply (bool_decide_unpack _); by vm_compute. }
  split.
  - rewrite (nearest_rain_scanned _ _ c) by done. simpl. unfold report.
    do 2 f_equal. apply (StronglySorted_unique tuple_le).
    + apply StronglySorted_sorted.
    + apply StronglySorted_filter, (bool_decide_unpack _). by vm_compute.
    + apply NoDup_Permutation.
      * rewrite sorted_Permutation. apply NoDup_elements.
      * apply NoDup_filter, (bool_decide_unpack _). by vm_compute.
      * intros q. rewrite elem_of_sorted, list_elem_of_filter.
        split; [intros ?; split; auto | by intros [? _]].
  - intros q Hq. split.
    + intros [p Hp]. exists p. by destruct (found_rain _ _ Hp) as (? & ? & ?).
    + intros (p & Hp & Hrain & <-).
      destruct (scanned_split img position)
        as (pre & post & Hsplit & Hend & _ & Hfound).
      destruct Hend as [->|Hfull].
      * rewrite app_nil_r in Hsplit.
        rewrite Hfound, <-Hsplit. by apply rain_under_is_Some.
      * apply elem_of_dom.
        assert (dom found = {[NW; SW; NE; SE]}) as ->.
        { apply set_subseteq_size_eq.
          - intros q' Hq'%elem_of_dom%Hkeys. by apply elem_of_four.
          - by rewrite size_dom, Hfull. }
        by apply elem_of_four.
Qed.

(** X9.  When the position is dry, every entry of the list returned is at
    least 1, and at most [sqrt 2] times the radius of the search: a zero
    only comes from rain at the position itself. *)
Theorem entries_bounds c result :
  pixels img position = Some c → c ∉ rain_colours →
  (nearest_rain position img).1 = Returned result →
  Forall (λ v, 1 ≤ v ∧
               v * v ≤ 2 * ((image_size img).1 `max` (image_size img).2) ^ 2)
         result.
Proof.
  intros Hc Hdry. rewrite (nearest_rain_scanned _ _ c) by done.
  simpl. intros [= <-]. unfold report. apply Forall_fmap, Forall_forall.
  intros q [p Hp]%elem_of_sorted. simpl.
  rewrite (lookup_total_correct _ _ _ Hp).
  apply found_rain in Hp as (_ & _ & Hp%elem_of_search_outwards).
  pose proof (chebyshev_squared position p) as [Hlo Hup].
  pose proof (squared_distance_nonneg p position) as Hnn.
  unfold floor_distance.
  destruct (Z.sqrt_spec _ Hnn) as [Hsq _].
  pose proof (Z.sqrt_le_mono 1 (squared_distance p position)) as Hone.
  split; [apply Hone; nia | nia].
Qed.
End locator_properties.

(** X5.  The base class has no rain colours: on any image that holds the
    position, its [nearest_rain] returns the empty list, after calling the
    accessor at every position of the search. *)
Theorem base_class_finds_nothing position img c :
  pixels img position = Some c →
  @nearest_rain BaseRainRadar position img =
    (Returned [],
     position ::
       search_outwards position ((image_size img).1 `max` (image_size img).2)).
Proof.
  intros Hc.
  assert (c ∉ @rain_colours BaseRainRadar) as Hdry by apply not_elem_of_nil.
  rewrite (nearest_rain_scanned _ _ c) by done.
  destruct (@scanned_dry BaseRainRadar img position) as [-> ->].
  - intros p _. unfold raining. destruct (pixels img p); [|done].
    apply bool_decide_eq_false, not_elem_of_nil.
  - by rewrite report_empty.
Qed.

(** X10.  The radius [max(image.size)] is enough: from a position inside
    an image of [w] by [h] pixels, the search yields every other pixel of
    the image. *)
Theorem search_reaches_image (w h : Z) (position p : point) :
  0 ≤ position.1 < w → 0 ≤ position.2 < h →
  0 ≤ p.1 < w → 0 ≤ p.2 < h → p ≠ position →
  ∃ l, search_outwards_fuel (Z.to_nat (8 * (w `max` h))) position (w `max` h)
         = Some l ∧ p ∈ l.
Proof.
  intros Hx Hy Hpx Hpy Hne. exists (search_outwards position (w `max` h)).
  split; [apply search_outwards_fuel_enough; lia|].
  apply elem_of_search_outwards. unfold chebyshev.
  destruct p as [px py], position as [x y]; simpl in *.
  assert (px ≠ x ∨ py ≠ y) by (destruct (decide (px = x)); [right|left]; congruence).
  lia.
Qed.

(** ** distance *)

Lemma squared_distance_sym a b : squared_distance a b = squared_distance b a.
Proof. unfold squared_distance. rewrite !Z.pow_2_r. nia. Qed.

(** X11.  [distance] is symmetric and never negative, it is zero exactly
    between a position and itself, and the same holds of its floor. *)
Theorem distance_symmetric_zero (a b : point) :
  distance a b = distance b a ∧
  (0 <= distance a b)%R ∧
  (distance a b = 0%R ↔ a = b) ∧
  floor_distance a b = floor_distance b a ∧
  (floor_distance a b = 0 ↔ a = b).
Proof.
  assert (squared_distance a b = 0 ↔ a = b) as Hzero.
  { unfold squared_distance. rewrite !Z.pow_2_r.
    destruct a as [ax ay], b as [bx by']; simpl. split.
    - intros Hsq.
      pose proof (Z.square_nonneg (ax - bx)) as Hx.
      pose proof (Z.square_nonneg (ay - by')) as Hy.
      assert ((ax - bx) * (ax - bx) = 0) as Hx0%Z.mul_eq_0 by lia.
      assert ((ay - by') * (ay - by') = 0) as Hy0%Z.mul_eq_0 by lia.
      f_equal; lia.
    - intros [= -> ->]. lia. }
  pose proof (squared_distance_nonneg a b) as Hnn.
  unfold distance, floor_distance.
  split_and!.
  - by rewrite squared_distance_sym.
  - apply sqrt_pos.
  - rewrite <-Hzero. split.
    + intros Hs. apply sqrt_eq_0 in Hs; [by apply eq_IZR in Hs|].
      by apply IZR_le in Hnn.
    + intros ->. apply sqrt_0.
  - by rewrite squared_distance_sym.
  - rewrite <-Hzero. split.
    + intros Hs. destruct (Z.sqrt_spec _ Hnn) as [_ Hup].
      rewrite Hs in Hup. lia.
    + by intros ->.
Qed.

(** ** On the Met Eireann palette *)

Lemma nothing_found_witness :
  pixels clear_sky (1, 1) = Some white ∧
  @nearest_rain MetEireannRainRadar (1, 1) clear_sky =
    (Returned [], (1, 1) :: search_outwards (1, 1) 3).
Proof.
  split; [reflexivity|].
  apply (@nothing_found MetEireannRainRadar clear_sky (1, 1) white);
    [reflexivity | apply white_is_dry |].
  apply Forall_forall, (bool_decide_unpack _). by vm_compute.
Defined.

Lemma base_class_finds_nothing_witness :
  pixels corners (2, 2) = Some white ∧
  @nearest_rain BaseRainRadar (2, 2) corners =
    (Returned [], (2, 2) :: search_outwards (2, 2) 5).
Proof.
  split; [reflexivity|].
  apply (base_class_finds_nothing (2, 2) corners white). reflexivity.
Defined.

Lemma found_first_witness :
  quadrants (@scanned MetEireannRainRadar (2, 2) corners) !! NW = Some (0, 0) ∧
  raining (H := MetEireannRainRadar) corners (0, 0) = true ∧
  quadrant_of (2, 2) (0, 0) = NW ∧
  ∃ before after,
    search_outwards (2, 2) 5 = before ++ (0, 0) :: after ∧
    ∀ p', p' ∈ before →
      ¬ (raining (H := MetEireannRainRadar) corners p' = true ∧
         quadrant_of (2, 2) p' = NW).
Proof.
  assert (quadrants (@scanned MetEireannRainRadar (2, 2) corners) !! NW
          = Some (0, 0)) as Hnw by (vm_compute; reflexivity).
  split; [exact Hnw|].
  destruct (@found_first MetEireannRainRadar corners (2, 2) NW (0, 0) Hnw)
    as (Hrain & Hkey & Hfirst & _).
  split_and!; [exact Hrain | exact Hkey | exact Hfirst].
Defined.

Lemma rain_resolved_or_full_witness :
  (4, 4) ∈ search_outwards (2, 2) 5 ∧
  raining (H := MetEireannRainRadar) corners (4, 4) = true ∧
  (is_Some (quadrants (@scanned MetEireannRainRadar (2, 2) corners)
              !! quadrant_of (2, 2) (4, 4)) ∨
   size (quadrants (@scanned MetEireannRainRadar (2, 2) corners)) = 4%nat).
Proof.
  assert ((4, 4) ∈ search_outwards (2, 2) 5) as Hin
    by (apply elem_of_search_outwards; unfold chebyshev; simpl; lia).
  split; [exact Hin|]. split; [reflexivity|].
  apply (@rain_resolved_or_full MetEireannRainRadar corners (2, 2) (4, 4));
    [exact Hin | reflexivity].
Defined.

Lemma quadrants_in_order_witness :
  pixels corners (2, 2) = Some white ∧
  (@nearest_rain MetEireannRainRadar (2, 2) corners).1 =
    Returned
      ((λ q, floor_distance
               (quadrants (@scanned MetEireannRainRadar (2, 2) corners) !!! q)
               (2, 2))
         <$> filter
               (λ q, is_Some
                  (quadrants (@scanned MetEireannRainRadar (2, 2) corners) !! q))
               [NW; SW; NE; SE]).
Proof.
  split; [reflexivity|].
  apply (@quadrants_in_order MetEireannRainRadar corners (2, 2) white);
    [reflexivity | apply white_is_dry |].
  apply (Forall_forall (λ p : point,
           @raining MetEireannRainRadar corners p = true → p.1 ≠ 2 ∧ p.2 ≠ 2)).
  apply (bool_decide_unpack _). by vm_compute.
Defined.

Lemma entries_bounds_witness :
  (@nearest_rain MetEireannRainRadar (2, 2) corners).1 = Returned [2; 2; 2; 2] ∧
  Forall (λ v, 1 ≤ v ∧ v * v ≤ 2 * (5 `max` 5) ^ 2) [2; 2; 2; 2].
Proof.
  assert ((@nearest_rain MetEireannRainRadar (2, 2) corners).1
          = Returned [2; 2; 2; 2]) as Hres by (vm_compute; reflexivity).
  split; [exact Hres|].
  apply (@entries_bounds MetEireannRainRadar corners (2, 2) white [2; 2; 2; 2]);
    [reflexivity | apply white_is_dry | exact Hres].
Defined.

Lemma search_reaches_image_witness :
  (4, 4) ≠ (2, 2) ∧
  ∃ l, search_outwards_fuel (Z.to_nat (8 * (5 `max` 5))) (2, 2) (5 `max` 5)
         = Some l ∧ (4, 4) ∈ l.
Proof.
  split; [discriminate|].
  apply (search_reaches_image 5 5 (2, 2) (4, 4)); simpl; lia || discriminate.
Defined.

(** The first position found under a key need not be the nearest one in
    Euclidean distance: on the ring of radius 3 around [(3, 3)] the corner
    [(0, 0)] comes before [(2, 0)], and the entry for NW is 4 although the
    rain at [(2, 0)] is at distance 3. *)
Example first_found_not_nearest :
  (@nearest_rain MetEireannRainRadar (3, 3) corner_and_edge).1 = Returned [4] ∧
  quadrants (@scanned MetEireannRainRadar (3, 3) corner_and_edge) !! NW
    = Some (0, 0) ∧
  raining (H := MetEireannRainRadar) corner_and_edge (2, 0) = true ∧
  quadrant_of (3, 3) (2, 0) = NW ∧
  floor_distance (2, 0) (3, 3) = 3.
Proof. split_and!; vm_compute; reflexivity. Qed.
